(** * Whisper topics and topic matchers (whisper/topic.go)

    A shallow embedding of [Topic], [NewTopic], [NewTopics], [Topic.String],
    [newTopicMatcher] and [topicMatcher.Matches], and the properties of the
    matching protocol proved over it; and of the path helper
    [EnsurePathAbsoluteOrRelativeTo] of package common.

    Modelling choices:
    - [Topic] is Go's [[4]byte]: a record of four bytes.
    - [map[Topic]struct{}] is a [gmap Topic ()]; a nil map and an empty map
      read the same (length 0, every lookup misses), both are [∅].
    - a slice is a list; its capacity is taken equal to its length.
    - a Go string is a sequence of bytes: Rocq's [string].
    - code that can panic (a slice expression or an index out of range)
      returns [option]; [None] is the panic. The loop of [Matches] carries
      fuel, and [None] is also what it returns when the fuel runs out. *)

From Stdlib Require Import Strings.Byte.
From Stdlib Require Strings.String.
From stdpp Require Import gmap list fin_maps countable.

(** ** Topics *)

(** [type Topic [4]byte] *)
Record Topic : Type := mkTopic { tb0 : byte; tb1 : byte; tb2 : byte; tb3 : byte }.

#[global] Instance byte_eq_dec : EqDecision byte := Byte.byte_eq_dec.

#[global] Program Instance byte_countable : Countable byte :=
  inj_countable Byte.to_N Byte.of_N _.
Next Obligation. exact Byte.of_to_N. Qed.

#[global] Instance Topic_eq_dec : EqDecision Topic.
Proof. solve_decision. Defined.

#[global] Program Instance Topic_countable : Countable Topic :=
  inj_countable'
    (fun t => (tb0 t, tb1 t, tb2 t, tb3 t))
    (fun '(a, b, c, d) => mkTopic a b c d) _.
Next Obligation. by intros []. Qed.

(** The zero value of [[4]byte]. *)
Definition Topic_zero : Topic := mkTopic x00 x00 x00 x00.

(** [t[:]]: the array seen as a slice. *)
Definition Topic_slice (t : Topic) : list byte := [tb0 t; tb1 t; tb2 t; tb3 t].

(** [s[:n]]: panics when [n] exceeds the capacity of [s]. *)
Definition slice_to (s : list byte) (n : nat) : option (list byte) :=
  if bool_decide (n ≤ length s) then Some (take n s) else None.

(** [copy(dst[:], src)] into an array of four bytes: the first
    [min 4 (len src)] bytes are overwritten, the others are kept. *)
Definition copy (dst : Topic) (src : list byte) : Topic :=
  mkTopic (default (tb0 dst) (src !! 0)) (default (tb1 dst) (src !! 1))
          (default (tb2 dst) (src !! 2)) (default (tb3 dst) (src !! 3)).

Section Deriver.
(** [crypto.Keccak256], of another package: a function from bytes to a
    digest, of which only the length (32 bytes) matters here. *)
Variable Keccak256 : list byte → list byte.

(** [func NewTopic(data []byte) Topic] *)
Definition NewTopic (data : list byte) : option Topic :=
  let prefix := Topic_zero in
  digest4 ← slice_to (Keccak256 data) 4;
  Some (copy prefix digest4).

(** The [for i, element := range data] loop of [NewTopics]:
    [topics[i] = NewTopic(element)]. *)
Fixpoint NewTopics_loop (topics : list Topic) (i : nat) (data : list (list byte))
  : option (list Topic) :=
  match data with
  | [] => Some topics
  | element :: rest =>
      t ← NewTopic element;
      if bool_decide (i < length topics)
      then NewTopics_loop (<[i := t]> topics) (S i) rest
      else None
  end.

(** [func NewTopics(data ...[]byte) []Topic] *)
Definition NewTopics (data : list (list byte)) : option (list Topic) :=
  let topics := replicate (length data) Topic_zero in
  NewTopics_loop topics 0 data.
End Deriver.

(** [func (self *Topic) String() string] *)
Definition String (self : Topic) : String.string :=
  String.string_of_list_byte (Topic_slice self).

(** ** Topic matchers *)

(** [type topicMatcher struct { conditions []map[Topic]struct{} }] *)
Record topicMatcher : Type := mkTopicMatcher { conditions : list (gmap Topic ()) }.

(** The inner loop of [newTopicMatcher]: [matcher[i][topic] = struct{}{}]
    for every topic of the condition, starting from [make(map[Topic]struct{})]. *)
Fixpoint newCondition_loop (m : gmap Topic ()) (condition : list Topic) : gmap Topic () :=
  match condition with
  | [] => m
  | topic :: rest => newCondition_loop (<[topic := ()]> m) rest
  end.

(** The outer loop of [newTopicMatcher], [for i, condition := range topics]. *)
Fixpoint newTopicMatcher_loop (matcher : list (gmap Topic ())) (i : nat)
    (topics : list (list Topic)) : option (list (gmap Topic ())) :=
  match topics with
  | [] => Some matcher
  | condition :: rest =>
      if bool_decide (i < length matcher)
      then newTopicMatcher_loop (<[i := newCondition_loop ∅ condition]> matcher) (S i) rest
      else None
  end.

(** [func newTopicMatcher(topics ...[]Topic) *topicMatcher] *)
Definition newTopicMatcher (topics : list (list Topic)) : option topicMatcher :=
  let matcher := replicate (length topics) (∅ : gmap Topic ()) in
  matcher' ← newTopicMatcher_loop matcher 0 topics;
  Some (mkTopicMatcher matcher').

(** The loop of [Matches], entered at index [i]:
    [for ; i < len(topics) && i < len(self.conditions); i++]. *)
Fixpoint Matches_loop (conds : list (gmap Topic ())) (topics : list Topic)
    (fuel i : nat) : option bool :=
  match fuel with
  | 0 => None
  | S fuel' =>
      if bool_decide (i < length topics) && bool_decide (i < length conds) then
        match conds !! i, topics !! i with
        | Some c, Some t =>
            if bool_decide (0 < size c) then
              match c !! t with
              | Some _ => Matches_loop conds topics fuel' (S i)
              | None => Some false
              end
            else Matches_loop conds topics fuel' (S i)
        | _, _ => None
        end
      else Some true
  end.

(** [func (self *topicMatcher) Matches(topics []Topic) bool] *)
Definition Matches (self : topicMatcher) (topics : list Topic) : option bool :=
  if bool_decide (length topics < length (conditions self)) then Some false
  else Matches_loop (conditions self) topics (S (length topics)) 0.

(** [newTopicMatcher(conds...).Matches(topics)] *)
Definition compile_matches (conds : list (list Topic)) (topics : list Topic) : option bool :=
  self ← newTopicMatcher conds; Matches self topics.

(** ** Auxiliary notions used to state and prove the properties *)

(** What one iteration of the loop of [Matches] decides at a position:
    a condition of length 0 is skipped, any other must contain the topic. *)
Definition accepts (c : gmap Topic ()) (t : Topic) : bool :=
  if bool_decide (0 < size c) then bool_decide (is_Some (c !! t)) else true.

(** The positions that both lists have, all accepted. *)
Fixpoint match_prefix (conds : list (gmap Topic ())) (topics : list Topic) : bool :=
  match conds, topics with
  | c :: conds', t :: topics' => accepts c t && match_prefix conds' topics'
  | _, _ => true
  end.


(** A digest function used to exercise the deriver: it pads (or cuts) its
    input to 32 bytes. *)
Definition pad32 (data : list byte) : list byte := take 32 (data ++ replicate 32 xff).

(** Sample topics for the concrete instances below. *)
Definition TopicA1 : Topic := mkTopic xa1 x00 x00 x01.
Definition TopicA2 : Topic := mkTopic xa2 x00 x00 x02.
Definition TopicA3 : Topic := mkTopic xa3 x00 x00 x03.
Definition TopicB : Topic := mkTopic xb0 x00 x00 x00.
Definition TopicD1 : Topic := mkTopic xd1 x00 x00 x01.
Definition TopicD2 : Topic := mkTopic xd2 x00 x00 x02.
Definition TopicD3 : Topic := mkTopic xd3 x00 x00 x03.

(** ** Path helpers (package common) *)

Section Paths.
(** [filepath.IsAbs] and [filepath.Join] (called with two elements), of the
    standard library. *)
Variable IsAbs : String.string → bool.
Variable Join : String.string → String.string → String.string.

(** [func EnsurePathAbsoluteOrRelativeTo(Datadir string, filename string) string] *)
Definition EnsurePathAbsoluteOrRelativeTo (Datadir filename : String.string)
  : String.string :=
  if IsAbs filename then filename else Join Datadir filename.
End Paths.

(** Stand-ins for [filepath.IsAbs] and [filepath.Join] used to exercise the
    path helper: a path is absolute when it starts with a slash, and two
    elements are joined by a slash. *)
Definition starts_with_slash (path : String.string) : bool :=
  match path with
  | String.String c _ => bool_decide (c = Ascii.ascii_of_byte x2f)
  | String.EmptyString => false
  end.

Definition join_slash (dir file : String.string) : String.string :=
  String.append dir (String.String (Ascii.ascii_of_byte x2f) file).

(** ** The compiled conditions *)

Lemma newCondition_loop_lookup condition : ∀ (m : gmap Topic ()) (t : Topic),
  is_Some (newCondition_loop m condition !! t) ↔ is_Some (m !! t) ∨ t ∈ condition.
Proof.
  induction condition as [|x rest IH]; intros m t; simpl.
  - rewrite elem_of_nil. tauto.
  - rewrite IH, elem_of_cons. destruct (decide (x = t)) as [->|Hne].
    + rewrite lookup_insert_eq. split; [intros _|]; eauto.
    + rewrite lookup_insert_ne by done.
      split; [intros [Hm|Hin]|intros [Hm|[Heq|Hin]]]; auto. congruence.
Qed.

Lemma newCondition_lookup (condition : list Topic) (t : Topic) :
  is_Some (newCondition_loop ∅ condition !! t) ↔ t ∈ condition.
Proof.
  rewrite newCondition_loop_lookup, lookup_empty.
  split; [intros [[? ?]|?]|]; eauto; discriminate.
Qed.

Lemma newCondition_size (condition : list Topic) :
  size (newCondition_loop ∅ condition) = 0 ↔ condition = [].
Proof.
  rewrite map_size_empty_iff. split.
  - intros Hempty. destruct condition as [|x rest]; [done|].
    assert (is_Some (newCondition_loop ∅ (x :: rest) !! x)) as [u Hu]
      by (apply newCondition_lookup; left).
    rewrite Hempty, lookup_empty in Hu. discriminate.
  - by intros ->.
Qed.

Lemma newTopicMatcher_loop_fill (topics : list (list Topic)) :
  ∀ (done_ : list (gmap Topic ())) (d : gmap Topic ()),
    newTopicMatcher_loop (done_ ++ replicate (length topics) d) (length done_) topics
    = Some (done_ ++ (newCondition_loop ∅ <$> topics)).
Proof.
  induction topics as [|condition rest IH]; intros done_ d; simpl.
  - done.
  - rewrite bool_decide_eq_true_2 by (rewrite length_app; simpl; lia).
    rewrite insert_app_r_alt, Nat.sub_diag by lia. simpl.
    specialize (IH (done_ ++ [newCondition_loop ∅ condition]) d).
    rewrite length_app, <- !(assoc_L (++)) in IH. simpl in IH.
    by rewrite Nat.add_1_r in IH.
Qed.

Lemma newTopicMatcher_eq (topics : list (list Topic)) :
  newTopicMatcher topics = Some (mkTopicMatcher (newCondition_loop ∅ <$> topics)).
Proof.
  unfold newTopicMatcher.
  pose proof (newTopicMatcher_loop_fill topics [] ∅) as Hfill.
  simpl in Hfill |- *. by rewrite Hfill.
Qed.

(** ** The loop of [Matches] *)

Lemma accepts_true (c : gmap Topic ()) (t : Topic) :
  accepts c t = true ↔ c = ∅ ∨ is_Some (c !! t).
Proof.
  unfold accepts. rewrite <- map_size_empty_iff. case_bool_decide.
  - rewrite bool_decide_eq_true. split; [auto|intros [?|?]; [lia|done]].
  - split; [intros _; left; lia|done].
Qed.

Lemma match_prefix_nil_r (conds : list (gmap Topic ())) : match_prefix conds [] = true.
Proof. by destruct conds. Qed.

(** With enough fuel the loop returns, and what it returns from index [i]
    is the verdict on the positions from [i] on. *)
Lemma Matches_loop_spec (conds : list (gmap Topic ())) (topics : list Topic) :
  ∀ fuel i, length conds `min` length topics - i < fuel →
    Matches_loop conds topics fuel i
    = Some (match_prefix (drop i conds) (drop i topics)).
Proof.
  induction fuel as [|fuel IH]; intros i Hfuel; [lia|]. simpl.
  destruct (decide (i < length topics)) as [Ht|Ht];
    [destruct (decide (i < length conds)) as [Hc|Hc]|].
  - rewrite !bool_decide_eq_true_2 by done. simpl.
    destruct (lookup_lt_is_Some_2 conds i Hc) as [c Hci].
    destruct (lookup_lt_is_Some_2 topics i Ht) as [t Hti].
    rewrite Hci, Hti.
    rewrite (drop_S conds c i Hci), (drop_S topics t i Hti). simpl.
    rewrite IH by lia. unfold accepts.
    case_bool_decide; [|done].
    destruct (c !! t) as [[]|] eqn:Hct.
    + by rewrite bool_decide_eq_true_2 by eauto.
    + by rewrite bool_decide_eq_false_2 by (intros [? ?]; discriminate).
  - rewrite (bool_decide_eq_false_2 (i < length conds)) by done.
    rewrite andb_false_r. by rewrite (drop_ge conds) by lia.
  - rewrite (bool_decide_eq_false_2 (i < length topics)) by done. simpl.
    by rewrite (drop_ge topics), match_prefix_nil_r by lia.
Qed.

Lemma Matches_spec (self : topicMatcher) (topics : list Topic) :
  Matches self topics
  = Some (if bool_decide (length topics < length (conditions self)) then false
          else match_prefix (conditions self) topics).
Proof.
  unfold Matches. case_bool_decide; [done|].
  rewrite Matches_loop_spec by lia. by rewrite !drop_0.
Qed.

Lemma compile_matches_spec (conds : list (list Topic)) (topics : list Topic) :
  compile_matches conds topics
  = Some (if bool_decide (length topics < length conds) then false
          else match_prefix (newCondition_loop ∅ <$> conds) topics).
Proof.
  unfold compile_matches. rewrite newTopicMatcher_eq. simpl.
  rewrite Matches_spec. simpl. by rewrite length_fmap.
Qed.

Lemma match_prefix_true (conds : list (gmap Topic ())) : ∀ topics : list Topic,
  match_prefix conds topics = true ↔
  ∀ i c t, conds !! i = Some c → topics !! i = Some t → accepts c t = true.
Proof.
  induction conds as [|c conds IH]; intros [|t topics]; simpl.
  - split; [intros _ i c t Hc|done]. by rewrite lookup_nil in Hc.
  - split; [intros _ i c t' Hc|done]. by rewrite lookup_nil in Hc.
  - split; [intros _ i c' t' _ Ht|done]. by rewrite lookup_nil in Ht.
  - rewrite andb_true_iff, IH. split.
    + intros [Hhd Htl] [|i] c' t' Hc Ht; simpl in *.
      * by simplify_eq.
      * eauto.
    + intros Hall. split; [by apply (Hall 0)|].
      intros i c' t' Hc Ht. by apply (Hall (S i)).
Qed.

Lemma match_prefix_app (conds : list (gmap Topic ())) : ∀ topics extra : list Topic,
  length conds ≤ length topics →
  match_prefix conds (topics ++ extra) = match_prefix conds topics.
Proof.
  induction conds as [|c conds IH]; intros [|t topics] extra Hlen; simpl in *;
    try done; try lia.
  by rewrite IH by lia.
Qed.

(** Two candidate lists that agree wherever the condition is not satisfied
    by everything get the same verdict. *)
Lemma match_prefix_ext (conds : list (gmap Topic ())) : ∀ topics topics' : list Topic,
  length topics = length topics' →
  (∀ i c t t', conds !! i = Some c → topics !! i = Some t → topics' !! i = Some t' →
     accepts c t = accepts c t') →
  match_prefix conds topics = match_prefix conds topics'.
Proof.
  induction conds as [|c conds IH]; intros [|t topics] [|t' topics'] Hlen Hagree;
    simpl in *; try done.
  f_equal.
  - by apply (Hagree 0).
  - apply IH; [lia|]. intros i. apply (Hagree (S i)).
Qed.

(** ** The deriver *)

Section DeriverFacts.
Variable Keccak256 : list byte → list byte.

Lemma NewTopic_Some (data : list byte) :
  4 ≤ length (Keccak256 data) →
  ∃ t, NewTopic Keccak256 data = Some t ∧ Topic_slice t = take 4 (Keccak256 data).
Proof.
  intros Hlen. unfold NewTopic, slice_to.
  rewrite bool_decide_eq_true_2 by done. simpl.
  eexists; split; [done|].
  destruct (Keccak256 data) as [|a [|b [|c [|d rest]]]]; simpl in *; try lia.
  done.
Qed.

(** The range loop fills the slots one by one, and panics exactly when a
    call of [NewTopic] does. *)
Lemma NewTopics_loop_fill (data : list (list byte)) :
  ∀ (done_ : list Topic) (d : Topic),
    NewTopics_loop Keccak256 (done_ ++ replicate (length data) d) (length done_) data
    = (done_ ++.) <$> mapM (NewTopic Keccak256) data.
Proof.
  induction data as [|element rest IH]; intros done_ d; simpl.
  - by rewrite app_nil_r.
  - destruct (NewTopic Keccak256 element) as [t|]; simpl; [|done].
    rewrite bool_decide_eq_true_2 by (rewrite length_app; simpl; lia).
    rewrite insert_app_r_alt, Nat.sub_diag by lia. simpl.
    specialize (IH (done_ ++ [t]) d).
    rewrite length_app, <- !(assoc_L (++)) in IH. simpl in IH.
    rewrite Nat.add_1_r in IH. rewrite IH.
    destruct (mapM (NewTopic Keccak256) rest) as [ts|]; simpl; [|done].
    by rewrite <- (assoc_L (++)).
Qed.

Lemma NewTopics_mapM (data : list (list byte)) :
  NewTopics Keccak256 data = mapM (NewTopic Keccak256) data.
Proof.
  unfold NewTopics.
  pose proof (NewTopics_loop_fill data [] Topic_zero) as Hfill.
  simpl in Hfill. rewrite Hfill.
  by destruct (mapM (NewTopic Keccak256) data).
Qed.
End DeriverFacts.

Lemma pad32_length (data : list byte) : length (pad32 data) = 32.
Proof.
  unfold pad32. rewrite length_take, length_app, length_replicate. lia.
Qed.

(** C6. [NewTopic] is total and deterministic: whenever the digest function
    returns at least four bytes (Keccak-256 returns 32), [NewTopic data]
    returns a topic for every [data], the empty sequence included; the four
    bytes of that topic are the first four bytes of the digest of [data];
    and equal inputs give equal topics. *)
Theorem NewTopic_total_prefix (Keccak256 : list byte → list byte)
    (Hdigest : ∀ data, 4 ≤ length (Keccak256 data)) :
  (∀ data, ∃ t, NewTopic Keccak256 data = Some t
                ∧ Topic_slice t = take 4 (Keccak256 data))
  ∧ (∃ t, NewTopic Keccak256 [] = Some t)
  ∧ (∀ data1 data2, data1 = data2 →
       NewTopic Keccak256 data1 = NewTopic Keccak256 data2).
Proof.
  split; [|split].
  - intros data. by apply NewTopic_Some.
  - destruct (NewTopic_Some Keccak256 [] (Hdigest [])) as (t & Ht & _). eauto.
  - by intros data1 data2 ->.
Qed.

Lemma NewTopic_total_prefix_witness :
  (∀ data, 4 ≤ length (pad32 data))
  ∧ NewTopic pad32 [x61; x62] = Some (mkTopic x61 x62 xff xff)
  ∧ ∃ t, NewTopic pad32 [x61; x62] = Some t
         ∧ Topic_slice t = take 4 (pad32 [x61; x62]).
Proof.
  assert (∀ data, 4 ≤ length (pad32 data)) as Hdigest
    by (intros data; rewrite pad32_length; lia).
  split; [exact Hdigest|]. split; [reflexivity|].
  exact (proj1 (NewTopic_total_prefix pad32 Hdigest) [x61; x62]).
Defined.

(** C7. [NewTopics] is the element-wise application of [NewTopic]: it
    returns one topic per input item, in the order of the input, the topic
    at index [i] being [NewTopic] of the item at index [i]; this holds for
    the empty sequence and for sequences with repeated items. (It panics
    exactly when one of the calls of [NewTopic] would, which a digest of at
    least four bytes excludes.) *)
Theorem NewTopics_elementwise (Keccak256 : list byte → list byte)
    (Hdigest : ∀ data, 4 ≤ length (Keccak256 data)) (data : list (list byte)) :
  NewTopics Keccak256 data = mapM (NewTopic Keccak256) data
  ∧ ∃ topics, NewTopics Keccak256 data = Some topics
      ∧ length topics = length data
      ∧ ∀ i, Some <$> (topics !! i) = NewTopic Keccak256 <$> (data !! i).
Proof.
  split; [apply NewTopics_mapM|].
  rewrite NewTopics_mapM.
  assert (is_Some (mapM (NewTopic Keccak256) data)) as [topics Htopics].
  { apply mapM_is_Some, Forall_forall. intros d _.
    destruct (NewTopic_Some Keccak256 d (Hdigest d)) as (t & Ht & _). eauto. }
  exists topics. split; [done|].
  apply mapM_Some in Htopics. split.
  - symmetry. exact (Forall2_length Htopics).
  - intros i. destruct (data !! i) as [d|] eqn:Hd; simpl.
    + destruct (Forall2_lookup_l _ _ _ _ _ Htopics Hd) as (t & -> & Ht).
      simpl. by rewrite Ht.
    + apply lookup_ge_None in Hd.
      rewrite (Forall2_length Htopics) in Hd.
      apply lookup_ge_None in Hd. by rewrite Hd.
Qed.

Lemma NewTopics_elementwise_witness :
  NewTopics pad32 [[x61]; []; [x61]]
  = Some [mkTopic x61 xff xff xff; mkTopic xff xff xff xff; mkTopic x61 xff xff xff]
  ∧ NewTopics pad32 [] = Some []
  ∧ ∃ topics, NewTopics pad32 [[x61]; []; [x61]] = Some topics
      ∧ length topics = 3.
Proof.
  split; [reflexivity|]. split; [reflexivity|].
  assert (∀ data, 4 ≤ length (pad32 data)) as Hdigest
    by (intros data; rewrite pad32_length; lia).
  destruct (NewTopics_elementwise pad32 Hdigest [[x61]; []; [x61]])
    as (_ & topics & Htopics & Hlen & _).
  exists topics. by split.
Defined.

(** C8. [String] renders exactly the four raw bytes of the topic: the bytes
    of the string are the bytes of the topic, in order and unchanged, so
    the string has length 4 and determines the topic. *)
Theorem String_raw_bytes (t : Topic) :
  String.list_byte_of_string (String t) = [tb0 t; tb1 t; tb2 t; tb3 t]
  ∧ String.length (String t) = 4
  ∧ ∀ t', String t = String t' → t = t'.
Proof.
  unfold String. rewrite String.list_byte_of_string_of_list_byte.
  split; [done|]. split; [done|].
  intros t' Heq.
  apply (f_equal String.list_byte_of_string) in Heq.
  rewrite !String.list_byte_of_string_of_list_byte in Heq.
  destruct t, t'. unfold Topic_slice in Heq. simpl in Heq. by simplify_eq.
Qed.

(** ** The matcher *)

(** What a compiled condition accepts, in terms of the list it was
    compiled from. *)
Lemma accepts_compiled (condition : list Topic) (t : Topic) :
  accepts (newCondition_loop ∅ condition) t = true ↔ condition = [] ∨ t ∈ condition.
Proof.
  rewrite accepts_true, newCondition_lookup, <- map_size_empty_iff.
  by rewrite newCondition_size.
Qed.

Lemma accepts_compiled_false (condition : list Topic) (t : Topic) :
  accepts (newCondition_loop ∅ condition) t = false ↔ condition ≠ [] ∧ t ∉ condition.
Proof.
  rewrite <- not_true_iff_false, accepts_compiled.
  split.
  - intros Hn. split; [intros ->|intros Hin]; apply Hn; auto.
  - intros [Hne Hnotin] [?|?]; done.
Qed.

(** C1. For the matcher compiled from the [N] conditions [conds] and a
    candidate list [topics] of length [M]: if [N > M] the result of
    [Matches] is [false]; otherwise [Matches] returns a boolean, which is
    [true] if and only if at every position [i < N] the condition [i] given
    to the compilation was empty or contains [topics[i]]. *)
Theorem Matches_characterisation (conds : list (list Topic)) (topics : list Topic) :
  (length conds > length topics → compile_matches conds topics = Some false)
  ∧ (length conds ≤ length topics →
     ∃ b, compile_matches conds topics = Some b
          ∧ (b = true ↔
             ∀ i c t, i < length conds → conds !! i = Some c → topics !! i = Some t →
                      c = [] ∨ t ∈ c)).
Proof.
  rewrite compile_matches_spec. split; intros Hlen.
  - by rewrite bool_decide_eq_true_2 by lia.
  - rewrite bool_decide_eq_false_2 by lia. eexists; split; [done|].
    rewrite match_prefix_true. split.
    + intros Hall i c t _ Hc Ht. apply accepts_compiled.
      apply (Hall i); [|done]. by rewrite list_lookup_fmap, Hc.
    + intros Hall i m t Hm Ht.
      rewrite list_lookup_fmap in Hm.
      destruct (conds !! i) as [c|] eqn:Hc; simpl in Hm; [|done].
      injection Hm as <-. apply accepts_compiled.
      apply (Hall i); [|done..]. by eapply lookup_lt_Some.
Qed.

Lemma Matches_characterisation_witness :
  compile_matches [[TopicA1; TopicA2]; [TopicB]; []] [TopicA1; TopicB] = Some false
  ∧ ∃ b, compile_matches [[TopicA1; TopicA2]; []] [TopicA2; TopicB; TopicD1] = Some b
         ∧ (b = true ↔
            ∀ i c t, i < 2 → [[TopicA1; TopicA2]; []] !! i = Some c →
                     [TopicA2; TopicB; TopicD1] !! i = Some t → c = [] ∨ t ∈ c).
Proof.
  split.
  - apply (Matches_characterisation [[TopicA1; TopicA2]; [TopicB]; []] [TopicA1; TopicB]).
    simpl. lia.
  - apply (Matches_characterisation [[TopicA1; TopicA2]; []] [TopicA2; TopicB; TopicD1]).
    simpl. lia.
Defined.

(** C2. The matcher compiled from no condition matches every candidate
    list, the empty one included; and [Matches] never fails: for every
    matcher and every candidate list it returns a boolean. *)
Theorem Matches_no_conditions_total :
  (∀ topics, compile_matches [] topics = Some true)
  ∧ compile_matches [] [] = Some true
  ∧ (∀ (self : topicMatcher) (topics : list Topic), ∃ b, Matches self topics = Some b)
  ∧ (∀ (conds : list (list Topic)) (topics : list Topic),
       ∃ b, compile_matches conds topics = Some b).
Proof.
  assert (∀ topics, compile_matches [] topics = Some true) as Hall.
  { intros topics. rewrite compile_matches_spec.
    by rewrite bool_decide_eq_false_2 by (simpl; lia). }
  split; [done|]. split; [done|]. split.
  - intros self topics. rewrite Matches_spec. eauto.
  - intros conds topics. rewrite compile_matches_spec. eauto.
Qed.

(** C3. Trailing topics do not affect the result: for every matcher with
    [N] conditions and every candidate list of length at least [N],
    [Matches] returns the same boolean on the list and on the list followed
    by any further topics. *)
Theorem Matches_extra_topics (self : topicMatcher) (topics extra : list Topic) :
  length (conditions self) ≤ length topics →
  ∃ b, Matches self topics = Some b ∧ Matches self (topics ++ extra) = Some b.
Proof.
  intros Hlen. rewrite !Matches_spec, length_app.
  rewrite !bool_decide_eq_false_2 by lia.
  rewrite match_prefix_app by done. eauto.
Qed.

Lemma Matches_extra_topics_witness :
  ∃ b, Matches (mkTopicMatcher [{[TopicA1 := ()]}; ∅]) [TopicA1; TopicB] = Some b
       ∧ Matches (mkTopicMatcher [{[TopicA1 := ()]}; ∅])
           ([TopicA1; TopicB] ++ [TopicD1; TopicD2]) = Some b.
Proof.
  apply (Matches_extra_topics (mkTopicMatcher [{[TopicA1 := ()]}; ∅])
           [TopicA1; TopicB] [TopicD1; TopicD2]).
  simpl. lia.
Defined.

Lemma match_prefix_app_both (conds1 conds2 : list (gmap Topic ())) :
  ∀ topics1 topics2 : list Topic, length topics1 = length conds1 →
    match_prefix (conds1 ++ conds2) (topics1 ++ topics2)
    = match_prefix conds1 topics1 && match_prefix conds2 topics2.
Proof.
  induction conds1 as [|c conds1 IH]; intros [|t topics1] topics2 Hlen;
    simpl in *; try done.
  rewrite IH by lia. by rewrite andb_assoc.
Qed.

(** What one position contributes to the result: with as many topics
    before the position as there are conditions before it, the condition
    [c] facing the topic [t] adds the test "[c] is empty or contains [t]"
    to what the other conditions decide on the other topics. *)
Lemma accepts_compiled_decide (c : list Topic) (t : Topic) :
  accepts (newCondition_loop ∅ c) t = bool_decide (c = [] ∨ t ∈ c).
Proof.
  destruct (accepts (newCondition_loop ∅ c) t) eqn:Hacc; symmetry.
  - apply bool_decide_eq_true_2. by apply accepts_compiled.
  - apply bool_decide_eq_false_2. intros Hor%accepts_compiled. congruence.
Qed.

Lemma compile_matches_position (conds1 conds2 : list (list Topic)) (c : list Topic)
    (topics1 topics2 : list Topic) (t : Topic) :
  length topics1 = length conds1 →
  compile_matches (conds1 ++ c :: conds2) (topics1 ++ t :: topics2)
  = andb (bool_decide (c = [] ∨ t ∈ c))
      <$> compile_matches (conds1 ++ conds2) (topics1 ++ topics2).
Proof.
  intros Hlen. rewrite !compile_matches_spec, !length_app. simpl. f_equal.
  destruct (decide (length topics2 < length conds2)) as [Hlt|Hge].
  - rewrite (bool_decide_eq_true_2 (_ + S _ < _)) by lia.
    rewrite (bool_decide_eq_true_2 (_ + _ < _ + _)) by lia.
    by rewrite andb_false_r.
  - rewrite (bool_decide_eq_false_2 (_ + S _ < _)) by lia.
    rewrite (bool_decide_eq_false_2 (_ + _ < _ + _)) by lia.
    rewrite !fmap_app, fmap_cons.
    rewrite !match_prefix_app_both by (by rewrite length_fmap).
    cbn [match_prefix]. rewrite accepts_compiled_decide.
    by destruct (bool_decide (c = [] ∨ t ∈ c)),
      (match_prefix (newCondition_loop ∅ <$> conds1) topics1).
Qed.

(** C4. An empty condition compiles to a wildcard: the matcher compiled
    from the single empty condition matches [[T]] for every topic [T]; and
    a position whose condition given to the compilation is empty is
    satisfied whatever the candidate topic there: the result of [Matches]
    does not depend on that topic, it is the result of the other
    conditions on the other topics, and on a candidate list that is long
    enough it is [true] exactly when every other position is satisfied. *)
Theorem Matches_wildcard :
  (∀ T : Topic, compile_matches [[]] [T] = Some true)
  ∧ (∀ (conds : list (list Topic)) (topics : list Topic) (i : nat) (T : Topic),
       conds !! i = Some [] →
       compile_matches conds (<[i := T]> topics) = compile_matches conds topics)
  ∧ (∀ (conds1 conds2 : list (list Topic)) (topics1 topics2 : list Topic) (T : Topic),
       length topics1 = length conds1 →
       compile_matches (conds1 ++ [] :: conds2) (topics1 ++ T :: topics2)
       = compile_matches (conds1 ++ conds2) (topics1 ++ topics2))
  ∧ (∀ (conds : list (list Topic)) (topics : list Topic) (i : nat),
       conds !! i = Some [] → length conds ≤ length topics →
       (compile_matches conds topics = Some true ↔
        ∀ j c t, j ≠ i → conds !! j = Some c → topics !! j = Some t →
                 c = [] ∨ t ∈ c)).
Proof.
  split; [|split; [|split]].
  - intros T. by rewrite compile_matches_spec.
  - intros conds topics i T Hi. rewrite !compile_matches_spec, length_insert.
    case_bool_decide; [done|]. f_equal.
    apply match_prefix_ext; [by rewrite length_insert|].
    intros k c t t' Hc Ht Ht'. destruct (decide (k = i)) as [->|Hne].
    + rewrite list_lookup_fmap, Hi in Hc. injection Hc as <-. done.
    + rewrite list_lookup_insert_ne in Ht by done. congruence.
  - intros conds1 conds2 topics1 topics2 T Hlen.
    rewrite compile_matches_position by done.
    rewrite bool_decide_eq_true_2 by auto.
    by destruct (compile_matches (conds1 ++ conds2) (topics1 ++ topics2)) as [[]|].
  - intros conds topics i Hi Hlen. rewrite compile_matches_spec.
    rewrite bool_decide_eq_false_2 by lia.
    split.
    + intros [= Hall] j c t _ Hc Ht. rewrite match_prefix_true in Hall.
      apply accepts_compiled, (Hall j); [|done]. by rewrite list_lookup_fmap, Hc.
    + intros Hall. f_equal. apply match_prefix_true. intros j m t Hm Ht.
      rewrite list_lookup_fmap in Hm.
      destruct (conds !! j) as [c|] eqn:Hc; simpl in Hm; [|done].
      injection Hm as <-. apply accepts_compiled.
      destruct (decide (j = i)) as [->|Hne]; [|by apply (Hall j)].
      left. congruence.
Qed.

Lemma Matches_wildcard_witness :
  compile_matches [[]] [TopicD3] = Some true
  ∧ compile_matches [[TopicA1]; []; [TopicB]] (<[1 := TopicD1]> [TopicA1; TopicD2; TopicB])
    = compile_matches [[TopicA1]; []; [TopicB]] [TopicA1; TopicD2; TopicB]
  ∧ compile_matches ([[TopicA1]] ++ [] :: []) ([TopicA1] ++ TopicB :: [])
    = compile_matches [[TopicA1]] [TopicA1]
  ∧ compile_matches [[TopicA1]; []] [TopicA1; TopicB] = Some true.
Proof.
  split; [|split; [|split]].
  - apply (proj1 Matches_wildcard TopicD3).
  - apply (proj1 (proj2 Matches_wildcard)
             [[TopicA1]; []; [TopicB]] [TopicA1; TopicD2; TopicB] 1 TopicD1).
    reflexivity.
  - apply (proj1 (proj2 (proj2 Matches_wildcard))
             [[TopicA1]] [] [TopicA1] [] TopicB).
    reflexivity.
  - apply (proj2 (proj2 (proj2 Matches_wildcard)) [[TopicA1]; []] [TopicA1; TopicB] 1);
      [reflexivity|simpl; lia|].
    intros [|[|j]] c t Hj Hc Ht; simpl in *; try done.
    injection Hc as <-. injection Ht as <-. right. left.
Defined.

(** The verdict of a compiled matcher on a candidate that is long enough,
    position by position. *)
Lemma compile_matches_cons (c : list Topic) (conds : list (list Topic))
    (t : Topic) (topics : list Topic) :
  compile_matches (c :: conds) (t :: topics)
  = andb (accepts (newCondition_loop ∅ c) t) <$> compile_matches conds topics.
Proof.
  rewrite !compile_matches_spec. cbn [length fmap list_fmap option_fmap option_map].
  destruct (decide (length topics < length conds)) as [Hlt|Hge].
  - rewrite !bool_decide_eq_true_2 by lia. by rewrite andb_false_r.
  - by rewrite !bool_decide_eq_false_2 by lia.
Qed.

Lemma compile_matches_nil (topics : list Topic) : compile_matches [] topics = Some true.
Proof. rewrite compile_matches_spec. by rewrite bool_decide_eq_false_2 by (simpl; lia). Qed.

Lemma compile_matches_short (conds : list (list Topic)) (topics : list Topic) :
  length topics < length conds → compile_matches conds topics = Some false.
Proof. intros Hlt. rewrite compile_matches_spec. by rewrite bool_decide_eq_true_2. Qed.

Lemma accepts_member (c : list Topic) (t : Topic) :
  t ∈ c → accepts (newCondition_loop ∅ c) t = true.
Proof. intros Hin. apply accepts_compiled. by right. Qed.

(** C5. For the matcher compiled from [[{A1,A2,A3}, {B}, {}, {D1,D2}]],
    with [D3] not in [{D1,D2}]: [[A1,B,X,D1]] matches for every topic [X];
    [[A1,B,X,D3]] does not match; [[A1,B,X]], which has 3 topics where the
    matcher has 4 conditions, does not match. And the matcher compiled from
    [[{A,B}]] does not match [[C]] when [C] is not in [{A,B}]. *)
Theorem Matches_sample :
  (∀ A1 A2 A3 B D1 D2 D3 X : Topic, D3 ∉ [D1; D2] →
     compile_matches [[A1; A2; A3]; [B]; []; [D1; D2]] [A1; B; X; D1] = Some true
     ∧ compile_matches [[A1; A2; A3]; [B]; []; [D1; D2]] [A1; B; X; D3] = Some false
     ∧ compile_matches [[A1; A2; A3]; [B]; []; [D1; D2]] [A1; B; X] = Some false)
  ∧ (∀ A B C : Topic, C ∉ [A; B] → compile_matches [[A; B]] [C] = Some false).
Proof.
  split.
  - intros A1 A2 A3 B D1 D2 D3 X HD3. split; [|split].
    + rewrite !compile_matches_cons, compile_matches_nil.
      rewrite (accepts_member [A1; A2; A3] A1), (accepts_member [B] B),
        (accepts_member [D1; D2] D1) by set_solver.
      by rewrite (proj2 (accepts_compiled [] X)) by auto.
    + rewrite !compile_matches_cons, compile_matches_nil.
      rewrite (accepts_member [A1; A2; A3] A1), (accepts_member [B] B) by set_solver.
      rewrite (proj2 (accepts_compiled [] X)) by auto.
      by rewrite (proj2 (accepts_compiled_false [D1; D2] D3)) by done.
    + apply compile_matches_short. simpl. lia.
  - intros A B C HC. rewrite compile_matches_cons, compile_matches_nil.
    by rewrite (proj2 (accepts_compiled_false [A; B] C)) by done.
Qed.

Lemma Matches_sample_witness :
  (compile_matches [[TopicA1; TopicA2; TopicA3]; [TopicB]; []; [TopicD1; TopicD2]]
     [TopicA1; TopicB; TopicA2; TopicD1] = Some true
   ∧ compile_matches [[TopicA1; TopicA2; TopicA3]; [TopicB]; []; [TopicD1; TopicD2]]
       [TopicA1; TopicB; TopicA2; TopicD3] = Some false
   ∧ compile_matches [[TopicA1; TopicA2; TopicA3]; [TopicB]; []; [TopicD1; TopicD2]]
       [TopicA1; TopicB; TopicA2] = Some false)
  ∧ compile_matches [[TopicA1; TopicB]] [TopicD3] = Some false.
Proof.
  split.
  - apply (proj1 Matches_sample TopicA1 TopicA2 TopicA3 TopicB TopicD1 TopicD2 TopicD3
             TopicA2).
    apply not_elem_of_cons; split; [done|]. apply not_elem_of_cons; split; [done|].
    apply not_elem_of_nil.
  - apply (proj2 Matches_sample TopicA1 TopicB TopicD3).
    apply not_elem_of_cons; split; [done|]. apply not_elem_of_cons; split; [done|].
    apply not_elem_of_nil.
Defined.

(** ** Order of the candidate topics *)





(** ** Conditions as sets *)

(** Conditions with the same topics compile to the same map. *)
Lemma newCondition_ext (c1 c2 : list Topic) :
  (∀ t, t ∈ c1 ↔ t ∈ c2) → newCondition_loop ∅ c1 = newCondition_loop ∅ c2.
Proof.
  intros Hsame. apply map_eq. intros t.
  pose proof (newCondition_lookup c1 t) as H1.
  pose proof (newCondition_lookup c2 t) as H2.
  destruct (newCondition_loop ∅ c1 !! t) as [[]|] eqn:E1,
           (newCondition_loop ∅ c2 !! t) as [[]|] eqn:E2; try done.
  - assert (is_Some (@None ())) as [? ?]; [|done].
    apply H2, Hsame, H1. eauto.
  - assert (is_Some (@None ())) as [? ?]; [|done].
    apply H1, Hsame, H2. eauto.
Qed.

(** The last clause of C10 as worded, "a topic is accepted at position [i]
    iff it occurs in input set [i]", fails at an empty input set: the
    matcher compiled from the single empty condition accepts [TopicA1],
    which does not occur in it. *)
Lemma newTopicMatcher_empty_condition_accepts :
  compile_matches [[]] [TopicA1] = Some true
  ∧ (TopicA1 ∉ @nil Topic)
  ∧ ¬ (∀ (c : list Topic) (t : Topic), compile_matches [c] [t] = Some true ↔ t ∈ c).
Proof.
  split; [reflexivity|]. split; [apply not_elem_of_nil|].
  intros Hiff. apply (not_elem_of_nil TopicA1), (Hiff [] TopicA1). reflexivity.
Qed.

(** C10, amended. The result of [Matches] depends only on which topics occur
    in each condition given to [newTopicMatcher], not on their order or on
    repetitions: two lists of conditions in which, position by position,
    the same topics occur compile to the same matcher, which returns the
    same result on every candidate list. [newTopicMatcher] returns a matcher
    with one condition per input condition, whose keys at position [i] are
    the topics of input condition [i]; and [Matches] accepts a topic at
    position [i] if and only if input condition [i] is empty or the topic
    occurs in it: the position contributes exactly that test to the result
    of the other conditions on the other topics. *)
Theorem newTopicMatcher_set_semantics :
  (∀ conds1 conds2 : list (list Topic),
     Forall2 (λ c1 c2, ∀ t : Topic, t ∈ c1 ↔ t ∈ c2) conds1 conds2 →
     newTopicMatcher conds1 = newTopicMatcher conds2
     ∧ ∀ topics, compile_matches conds1 topics = compile_matches conds2 topics)
  ∧ (∀ conds : list (list Topic),
       ∃ self, newTopicMatcher conds = Some self
         ∧ length (conditions self) = length conds
         ∧ ∀ i c, conds !! i = Some c →
             ∃ m, conditions self !! i = Some m
                  ∧ ∀ t : Topic, is_Some (m !! t) ↔ t ∈ c)
  ∧ (∀ (conds1 conds2 : list (list Topic)) (c : list Topic)
       (topics1 topics2 : list Topic) (t : Topic),
       length topics1 = length conds1 →
       compile_matches (conds1 ++ c :: conds2) (topics1 ++ t :: topics2)
       = andb (bool_decide (c = [] ∨ t ∈ c))
           <$> compile_matches (conds1 ++ conds2) (topics1 ++ topics2))
  ∧ (∀ (c : list Topic) (t : Topic),
       compile_matches [c] [t] = Some true ↔ c = [] ∨ t ∈ c).
Proof.
  split; [|split; [|split]].
  - intros conds1 conds2 Hsame.
    assert (newTopicMatcher conds1 = newTopicMatcher conds2) as Heq.
    { rewrite !newTopicMatcher_eq. do 2 f_equal.
      induction Hsame as [|c1 c2 rest1 rest2 Hc _ IH]; [done|].
      rewrite !fmap_cons. by rewrite IH, (newCondition_ext c1 c2 Hc). }
    split; [done|]. intros topics. unfold compile_matches. by rewrite Heq.
  - intros conds. rewrite newTopicMatcher_eq. eexists; split; [done|]. simpl.
    split; [by rewrite length_fmap|].
    intros i c Hc. exists (newCondition_loop ∅ c).
    split; [by rewrite list_lookup_fmap, Hc|]. apply newCondition_lookup.
  - intros conds1 conds2 c topics1 topics2 t Hlen.
    by apply compile_matches_position.
  - intros c t.
    pose proof (compile_matches_position [] [] c [] [] t eq_refl) as Hpos.
    cbn [app] in Hpos. rewrite compile_matches_nil in Hpos.
    rewrite Hpos. cbn [fmap option_fmap option_map].
    rewrite andb_true_r. split.
    + intros [= Hb]. by apply bool_decide_eq_true_1 in Hb.
    + intros Hor. f_equal. by apply bool_decide_eq_true_2.
Qed.

Lemma newTopicMatcher_set_semantics_witness :
  compile_matches [[TopicA1; TopicB; TopicA1]; [TopicD1]] [TopicB; TopicD1]
  = compile_matches [[TopicB; TopicA1]; [TopicD1; TopicD1]] [TopicB; TopicD1]
  ∧ compile_matches [[TopicA1; TopicB; TopicA1]; [TopicD1]] [TopicB; TopicD1] = Some true
  ∧ compile_matches ([[TopicA1]] ++ [TopicB; TopicD1] :: []) ([TopicA1] ++ TopicD2 :: [])
    = andb (bool_decide ([TopicB; TopicD1] = [] ∨ TopicD2 ∈ [TopicB; TopicD1]))
        <$> compile_matches ([[TopicA1]] ++ []) ([TopicA1] ++ [])
  ∧ compile_matches ([[TopicA1]] ++ [TopicB; TopicD1] :: []) ([TopicA1] ++ TopicD2 :: [])
    = Some false.
Proof.
  split; [|split; [reflexivity|split; [|reflexivity]]].
  - apply (proj1 newTopicMatcher_set_semantics
             [[TopicA1; TopicB; TopicA1]; [TopicD1]]
             [[TopicB; TopicA1]; [TopicD1; TopicD1]]).
    repeat apply Forall2_cons_2; [..|apply Forall2_nil_2];
      intros t; rewrite !elem_of_cons, elem_of_nil; tauto.
  - apply (proj1 (proj2 (proj2 newTopicMatcher_set_semantics))
             [[TopicA1]] [] [TopicB; TopicD1] [TopicA1] [] TopicD2).
    reflexivity.
Defined.

(** ** Further properties of the matcher *)

Lemma accepts_singleton (a t : Topic) :
  accepts (newCondition_loop ∅ [a]) t = bool_decide (t = a).
Proof.
  case_bool_decide as Heq.
  - subst. apply accepts_member. left.
  - apply accepts_compiled_false. split; [done|].
    by rewrite list_elem_of_singleton.
Qed.

Lemma match_prefix_exact (required : list Topic) : ∀ topics : list Topic,
  length required ≤ length topics →
  match_prefix (newCondition_loop ∅ <$> ((λ t, [t]) <$> required)) topics
  = bool_decide (required `prefix_of` topics).
Proof.
  induction required as [|a required IH]; intros topics Hlen.
  - symmetry. apply bool_decide_eq_true_2, prefix_nil.
  - destruct topics as [|t topics]; [simpl in Hlen; lia|].
    rewrite !fmap_cons. cbn [match_prefix].
    rewrite accepts_singleton, IH by (simpl in Hlen; lia).
    destruct (decide (t = a)) as [->|Hne].
    + rewrite bool_decide_eq_true_2 by done. simpl.
      apply bool_decide_ext. split; [apply prefix_cons|apply prefix_cons_inv_2].
    + rewrite bool_decide_eq_false_2 by done. simpl. symmetry.
      apply bool_decide_eq_false_2. intros Hp%prefix_cons_inv_1. done.
Qed.

(** A matcher whose conditions each name one topic is a prefix test: it
    matches exactly the candidate lists that start with the named topics. *)
Theorem Matches_exact_conditions (required topics : list Topic) :
  compile_matches ((λ t, [t]) <$> required) topics
  = Some (bool_decide (required `prefix_of` topics)).
Proof.
  rewrite compile_matches_spec, length_fmap. f_equal.
  case_bool_decide as Hshort.
  - symmetry. apply bool_decide_eq_false_2. intros Hp%prefix_length. lia.
  - apply match_prefix_exact. lia.
Qed.

(** Trailing wildcard conditions only ask for more topics: the matcher of
    [conds] followed by [n] empty conditions matches a candidate list when
    the list has at least [length conds + n] topics and the matcher of
    [conds] matches it. Without [conds], it is a test of the length. *)
Theorem Matches_trailing_wildcards (conds : list (list Topic)) (n : nat)
    (topics : list Topic) :
  compile_matches (conds ++ replicate n []) topics
  = andb (bool_decide (length conds + n ≤ length topics)) <$> compile_matches conds topics.
Proof.
  rewrite !compile_matches_spec, length_app, length_replicate. simpl. f_equal.
  destruct (decide (length conds + n ≤ length topics)) as [Hle|Hgt].
  - rewrite (bool_decide_eq_true_2 _ Hle), !bool_decide_eq_false_2 by lia. simpl.
    rewrite <- (take_drop (length conds) topics) at 1. rewrite fmap_app.
    rewrite match_prefix_app_both by (rewrite length_fmap, length_take; lia).
    rewrite <- (take_drop (length conds) topics) at 3.
    rewrite match_prefix_app by (rewrite length_fmap, length_take; lia).
    assert (∀ ts, match_prefix (newCondition_loop ∅ <$> replicate n []) ts = true)
      as ->; [|by rewrite andb_true_r].
    clear. induction n as [|n IH]; intros [|t ts]; simpl; try done. apply IH.
  - rewrite (bool_decide_eq_false_2 _ Hgt), bool_decide_eq_true_2 by lia. done.
Qed.

(** Conditions compose by position: on a candidate list split where the
    first group of conditions ends, the matcher of both groups returns the
    conjunction of what the two matchers return on the two parts. *)
Theorem Matches_app (conds1 conds2 : list (gmap Topic ())) (topics1 topics2 : list Topic) :
  length topics1 = length conds1 →
  Matches (mkTopicMatcher (conds1 ++ conds2)) (topics1 ++ topics2)
  = b1 ← Matches (mkTopicMatcher conds1) topics1;
    b2 ← Matches (mkTopicMatcher conds2) topics2;
    Some (b1 && b2).
Proof.
  intros Hlen. rewrite !Matches_spec. simpl. rewrite !length_app.
  rewrite (bool_decide_eq_false_2 (length topics1 < length conds1)) by lia.
  f_equal. destruct (decide (length topics2 < length conds2)) as [Hlt|Hge].
  - rewrite !bool_decide_eq_true_2 by lia. by rewrite andb_false_r.
  - rewrite !bool_decide_eq_false_2 by lia. by apply match_prefix_app_both.
Qed.

Lemma Matches_app_witness :
  Matches (mkTopicMatcher ([{[TopicA1 := ()]}] ++ [∅; {[TopicB := ()]}]))
    ([TopicA1] ++ [TopicD1; TopicB; TopicD2])
  = b1 ← Matches (mkTopicMatcher [{[TopicA1 := ()]}]) [TopicA1];
    b2 ← Matches (mkTopicMatcher [∅; {[TopicB := ()]}]) [TopicD1; TopicB; TopicD2];
    Some (b1 && b2).
Proof.
  apply (Matches_app [{[TopicA1 := ()]}] [∅; {[TopicB := ()]}]
           [TopicA1] [TopicD1; TopicB; TopicD2]).
  reflexivity.
Defined.

(** Dropping trailing conditions only loosens a matcher: what a matcher
    accepts is accepted by every matcher made of a prefix of its
    conditions. *)
Theorem Matches_fewer_conditions (self self' : topicMatcher) (topics : list Topic) :
  conditions self `prefix_of` conditions self' →
  Matches self' topics = Some true → Matches self topics = Some true.
Proof.
  intros [more Hmore]. rewrite !Matches_spec, Hmore, length_app.
  case_bool_decide as Hshort; [done|]. intros [= Hall].
  rewrite bool_decide_eq_false_2 by lia. f_equal.
  apply match_prefix_true. intros i c t Hc Ht.
  rewrite match_prefix_true in Hall. apply (Hall i); [|done].
  by apply lookup_app_l_Some.
Qed.

Lemma Matches_fewer_conditions_witness :
  Matches (mkTopicMatcher [{[TopicA1 := ()]}]) [TopicA1; TopicB] = Some true.
Proof.
  apply (Matches_fewer_conditions (mkTopicMatcher [{[TopicA1 := ()]}])
           (mkTopicMatcher [{[TopicA1 := ()]}; {[TopicB := ()]}]) [TopicA1; TopicB]).
  - by exists [{[TopicB := ()]}].
  - reflexivity.
Defined.

(** Widening the conditions keeps every match, provided empty conditions
    stay empty: if, position by position, the topics of [conds1] occur in
    [conds2] and an empty condition of [conds1] is empty in [conds2], what
    the first matcher accepts the second accepts. The proviso is needed:
    adding a topic [A] to an empty condition turns the acceptance of every
    other topic into a rejection. *)
Theorem Matches_widen :
  (∀ (conds1 conds2 : list (list Topic)) (topics : list Topic),
     Forall2 (λ c1 c2, (c1 = [] → c2 = []) ∧ ∀ t : Topic, t ∈ c1 → t ∈ c2) conds1 conds2 →
     compile_matches conds1 topics = Some true →
     compile_matches conds2 topics = Some true)
  ∧ (∀ A T : Topic, T ≠ A →
       compile_matches [[]] [T] = Some true ∧ compile_matches [[A]] [T] = Some false).
Proof.
  split.
  - intros conds1 conds2 topics Hwide.
    rewrite !compile_matches_spec, (Forall2_length Hwide).
    case_bool_decide; [done|]. intros [= Hall]. f_equal.
    rewrite match_prefix_true in Hall. apply match_prefix_true.
    intros i m2 t Hm2 Ht. rewrite list_lookup_fmap in Hm2.
    destruct (conds2 !! i) as [c2|] eqn:Hc2; simpl in Hm2; [|done].
    injection Hm2 as <-.
    destruct (Forall2_lookup_r _ _ _ _ _ Hwide Hc2) as (c1 & Hc1 & Hnil & Hsub).
    apply accepts_compiled.
    assert (accepts (newCondition_loop ∅ c1) t = true) as Hacc.
    { apply (Hall i); [|done]. by rewrite list_lookup_fmap, Hc1. }
    apply accepts_compiled in Hacc as [->|Hin]; auto.
  - intros A T Hne. split; [by rewrite compile_matches_spec|].
    rewrite compile_matches_cons, compile_matches_nil, accepts_singleton.
    by rewrite bool_decide_eq_false_2.
Qed.

Lemma Matches_widen_witness :
  compile_matches [[TopicA1; TopicA2]; []] [TopicA1; TopicB] = Some true
  ∧ compile_matches [[]] [TopicB] = Some true
  ∧ compile_matches [[TopicA1]] [TopicB] = Some false.
Proof.
  split.
  - apply (proj1 Matches_widen [[TopicA1]; []] [[TopicA1; TopicA2]; []] [TopicA1; TopicB]).
    + repeat apply Forall2_cons_2; [..|apply Forall2_nil_2];
        (split; [done|]); intros t; rewrite ?elem_of_cons, ?elem_of_nil; tauto.
    + reflexivity.
  - apply (proj2 Matches_widen TopicA1 TopicB). done.
Defined.

(** The empty candidate list is matched by the matcher without conditions
    and by no other. *)
Theorem Matches_no_topics (self : topicMatcher) :
  Matches self [] = Some (bool_decide (conditions self = [])).
Proof.
  rewrite Matches_spec. by destruct (conditions self) as [|c conds].
Qed.

(** ** Further properties of the compilation *)

Lemma newCondition_loop_dom (condition : list Topic) : ∀ m : gmap Topic (),
  dom (newCondition_loop m condition) = dom m ∪ list_to_set condition.
Proof.
  induction condition as [|x rest IH]; intros m; cbn [newCondition_loop].
  - by rewrite list_to_set_nil, (right_id_L ∅ (∪)).
  - by rewrite IH, dom_insert_L, list_to_set_cons, (comm_L (∪) {[x]}), (assoc_L (∪)).
Qed.

Lemma remove_dups_length_le (c : list Topic) : length (remove_dups c) ≤ length c.
Proof. induction c as [|x c IH]; simpl; [done|]. case_decide; simpl; lia. Qed.

Lemma remove_dups_length_NoDup (c : list Topic) :
  length (remove_dups c) = length c ↔ NoDup c.
Proof.
  split.
  - induction c as [|x c IH]; simpl; [constructor|].
    pose proof (remove_dups_length_le c).
    case_decide as Hin; simpl; [lia|]. intros [= Hlen].
    constructor; [done|]. by apply IH.
  - induction 1 as [|x c Hx Hnd IH]; simpl; [done|].
    case_decide; [done|]. simpl. by rewrite IH.
Qed.

(** Repetitions collapse in a compiled condition: its keys are the topics
    of the input condition, and its length is the number of distinct topics
    of the input, which is the length of the input exactly when no topic is
    repeated. *)
Theorem newTopicMatcher_distinct (conds : list (list Topic)) :
  ∃ self, newTopicMatcher conds = Some self
    ∧ ∀ i c, conds !! i = Some c →
        ∃ m, conditions self !! i = Some m
             ∧ dom m = list_to_set c
             ∧ size m = length (remove_dups c)
             ∧ size m ≤ length c
             ∧ (size m = length c ↔ NoDup c).
Proof.
  rewrite newTopicMatcher_eq. eexists; split; [done|]. simpl.
  intros i c Hc. exists (newCondition_loop ∅ c).
  split; [by rewrite list_lookup_fmap, Hc|].
  assert (dom (newCondition_loop ∅ c) = list_to_set c) as Hdom
    by (by rewrite newCondition_loop_dom, dom_empty_L, (left_id_L ∅ (∪))).
  assert (size (newCondition_loop ∅ c) = length (remove_dups c)) as Hsize.
  { rewrite <- size_dom, Hdom.
    assert (list_to_set c =@{gset Topic} list_to_set (remove_dups c)) as ->.
    { apply set_eq. intros t.
      by rewrite !elem_of_list_to_set, elem_of_remove_dups. }
    apply size_list_to_set, NoDup_remove_dups. }
  split; [done|]. split; [done|].
  pose proof (remove_dups_length_le c).
  split; [lia|]. rewrite Hsize. apply remove_dups_length_NoDup.
Qed.

(** ** Further properties of the deriver *)

Section DeriverCompose.
Variable Keccak256 : list byte → list byte.

Lemma mapM_NewTopic_app (data1 data2 : list (list byte)) :
  mapM (NewTopic Keccak256) (data1 ++ data2)
  = topics1 ← mapM (NewTopic Keccak256) data1;
    topics2 ← mapM (NewTopic Keccak256) data2;
    Some (topics1 ++ topics2).
Proof.
  induction data1 as [|d data1 IH]; simpl.
  - by destruct (mapM (NewTopic Keccak256) data2).
  - destruct (NewTopic Keccak256 d) as [t|]; simpl; [|done].
    rewrite IH. destruct (mapM (NewTopic Keccak256) data1) as [ts1|]; simpl; [|done].
    by destruct (mapM (NewTopic Keccak256) data2).
Qed.

Lemma NewTopics_is_Some (data : list (list byte)) :
  (∀ d, 4 ≤ length (Keccak256 d)) → is_Some (NewTopics Keccak256 data).
Proof.
  intros Hdigest. rewrite NewTopics_mapM. apply mapM_is_Some, Forall_forall.
  intros d _. destruct (NewTopic_Some Keccak256 d (Hdigest d)) as (t & Ht & _). eauto.
Qed.
End DeriverCompose.

(** [NewTopics] distributes over the concatenation of its inputs: the topics
    of [data1 ++ data2] are the topics of [data1] followed by those of
    [data2] (and it panics exactly when one of the two calls does). *)
Theorem NewTopics_app (Keccak256 : list byte → list byte) (data1 data2 : list (list byte)) :
  NewTopics Keccak256 (data1 ++ data2)
  = topics1 ← NewTopics Keccak256 data1;
    topics2 ← NewTopics Keccak256 data2;
    Some (topics1 ++ topics2).
Proof. rewrite !NewTopics_mapM. apply mapM_NewTopic_app. Qed.

(** Two inputs get the same topic exactly when their digests start with
    the same four bytes: the topic keeps nothing else of the data. *)
Theorem NewTopic_collision (Keccak256 : list byte → list byte) (data1 data2 : list byte) :
  4 ≤ length (Keccak256 data1) → 4 ≤ length (Keccak256 data2) →
  NewTopic Keccak256 data1 = NewTopic Keccak256 data2
  ↔ take 4 (Keccak256 data1) = take 4 (Keccak256 data2).
Proof.
  intros Hlen1 Hlen2.
  destruct (NewTopic_Some Keccak256 data1 Hlen1) as (t1 & Ht1 & Hs1).
  destruct (NewTopic_Some Keccak256 data2 Hlen2) as (t2 & Ht2 & Hs2).
  rewrite Ht1, Ht2, <- Hs1, <- Hs2. split.
  - by intros [= ->].
  - intros Heq. f_equal. destruct t1, t2. unfold Topic_slice in Heq.
    simpl in Heq. by simplify_eq.
Qed.

Lemma NewTopic_collision_witness :
  NewTopic pad32 [x61; x62; x63; x64; x65] = NewTopic pad32 [x61; x62; x63; x64; x66]
  ↔ take 4 (pad32 [x61; x62; x63; x64; x65]) = take 4 (pad32 [x61; x62; x63; x64; x66]).
Proof.
  apply (NewTopic_collision pad32 [x61; x62; x63; x64; x65] [x61; x62; x63; x64; x66]);
    rewrite pad32_length; lia.
Defined.

(** A filter made of a message's own topics matches the message: for the
    topics derived from [data], the matcher whose condition [i] names the
    topic of the [i]-th item of any prefix of [data] matches the derived
    list, whatever topics follow it. *)
Theorem NewTopics_self_match (Keccak256 : list byte → list byte)
    (Hdigest : ∀ data, 4 ≤ length (Keccak256 data))
    (data : list (list byte)) (k : nat) (extra : list Topic) :
  ∃ topics required,
    NewTopics Keccak256 data = Some topics
    ∧ NewTopics Keccak256 (take k data) = Some required
    ∧ compile_matches ((λ t, [t]) <$> required) (topics ++ extra) = Some true.
Proof.
  destruct (NewTopics_is_Some Keccak256 (take k data) Hdigest) as [required Hreq].
  destruct (NewTopics_is_Some Keccak256 (drop k data) Hdigest) as [rest Hrest].
  exists (required ++ rest), required.
  split; [|split; [done|]].
  - rewrite NewTopics_mapM in Hreq, Hrest |- *.
    rewrite <- (take_drop k data) at 1. by rewrite mapM_NewTopic_app, Hreq, Hrest.
  - rewrite compile_matches_spec, length_fmap, !length_app.
    rewrite bool_decide_eq_false_2 by lia. f_equal.
    rewrite match_prefix_exact by (rewrite !length_app; lia).
    apply bool_decide_eq_true_2. rewrite <- (assoc_L (++)). by apply prefix_app_r.
Qed.

Lemma NewTopics_self_match_witness :
  ∃ topics required,
    NewTopics pad32 [[x61]; [x62]; [x63]] = Some topics
    ∧ NewTopics pad32 (take 2 [[x61]; [x62]; [x63]]) = Some required
    ∧ compile_matches ((λ t, [t]) <$> required) (topics ++ [TopicB]) = Some true.
Proof.
  apply (NewTopics_self_match pad32).
  intros data. rewrite pad32_length. lia.
Defined.

(** ** The path helper *)

(** With a directory under which every joined path is absolute (as
    [filepath.Join] gives for an absolute directory),
    [EnsurePathAbsoluteOrRelativeTo] always returns an absolute path, returns
    an absolute file name unchanged, and applying it again to its result
    changes nothing. *)
Theorem EnsurePathAbsoluteOrRelativeTo_absolute (IsAbs : String.string → bool)
    (Join : String.string → String.string → String.string) (Datadir : String.string)
    (HJoin : ∀ filename, IsAbs (Join Datadir filename) = true)
    (filename : String.string) :
  IsAbs (EnsurePathAbsoluteOrRelativeTo IsAbs Join Datadir filename) = true
  ∧ (IsAbs filename = true →
     EnsurePathAbsoluteOrRelativeTo IsAbs Join Datadir filename = filename)
  ∧ EnsurePathAbsoluteOrRelativeTo IsAbs Join Datadir
      (EnsurePathAbsoluteOrRelativeTo IsAbs Join Datadir filename)
    = EnsurePathAbsoluteOrRelativeTo IsAbs Join Datadir filename.
Proof.
  unfold EnsurePathAbsoluteOrRelativeTo.
  destruct (IsAbs filename) eqn:Hf.
  - by rewrite Hf.
  - by rewrite HJoin.
Qed.

Lemma EnsurePathAbsoluteOrRelativeTo_absolute_witness :
  let slash := Ascii.ascii_of_byte x2f in
  let d := Ascii.ascii_of_byte x64 in
  let datadir := String.String slash (String.String d String.EmptyString) in
  let file := String.String d String.EmptyString in
  EnsurePathAbsoluteOrRelativeTo starts_with_slash join_slash datadir file
  = String.String slash (String.String d (String.String slash file))
  ∧ starts_with_slash
      (EnsurePathAbsoluteOrRelativeTo starts_with_slash join_slash datadir file) = true.
Proof.
  split; [reflexivity|].
  apply (EnsurePathAbsoluteOrRelativeTo_absolute starts_with_slash join_slash
           (String.String (Ascii.ascii_of_byte x2f)
              (String.String (Ascii.ascii_of_byte x64) String.EmptyString))).
  intros filename. reflexivity.
Defined.
